(** * Lab 3.4: the push-button demo of the DE1-SoC board

    A shallow embedding of [src/lab3/push_button_demo.cpp]: the class
    [WrappedCounter] and the polling loop [run_button_demo], followed by
    the properties that the specification states about them.

    Conventions.
    - [std::uint64_t] ([Count]) and the 32-bit [Register] are integers in
      [Z]; every C++ operation that can leave the range is followed by
      its reduction modulo [2^64] or [2^32].
    - [%] by zero is undefined behaviour in C++; the operation that can
      reach it returns [option] and yields [None] there.
    - The board is the environment of the loop: what [PushButtonGet] and
      [ReadAllSwitches] return is an input, what the loop does with the
      board is recorded in a trace of [IOEvent]s. *)

From Stdlib Require Import ZArith List Bool Lia.
Import ListNotations.

Local Open Scope Z_scope.

(** ** Machine integers *)

(** [std::uint64_t], the type [WrappedCounter::Count]. *)
Module Count.
Definition modulus : Z := 2 ^ 64.
Definition max_value : Z := modulus - 1.
Definition wrap (z : Z) : Z := z mod modulus.
Definition in_range (z : Z) : Prop := 0 <= z < modulus.
#[global] Arguments modulus : simpl never.
End Count.

(** [Register], a 32-bit unsigned word ([std::uint32_t]). *)
Module Register.
Definition modulus : Z := 2 ^ 32.
Definition wrap (z : Z) : Z := z mod modulus.
Definition in_range (z : Z) : Prop := 0 <= z < modulus.
#[global] Arguments modulus : simpl never.
End Register.

(** ** [class WrappedCounter] *)

(** The two data members, with the spelling of the source. *)
Record WrappedCounter : Type := {
  m_couter : Z;
  m_max : Z
}.

(** [explicit WrappedCounter(Count max) : m_max{max} {}], with the default
    member initialiser [m_couter{0}]. *)
Definition make_counter (max : Z) : WrappedCounter :=
  {| m_couter := 0; m_max := max |}.

(** [operator Count() const]. *)
Definition to_Count (c : WrappedCounter) : Z := m_couter c.

(** [void apply(std::function<Count(Count)> func)].  The callable returns
    a [Count]; [m_max + 1] is computed in [Count] and wraps to [0] when
    [m_max] is the largest [Count], in which case [%] is undefined. *)
Definition apply (c : WrappedCounter) (func : Z -> Z) : option WrappedCounter :=
  let new_counter := Count.wrap (func (m_couter c)) in
  let divisor := Count.wrap (m_max c + 1) in
  if divisor =? 0 then None
  else Some {| m_couter := new_counter mod divisor; m_max := m_max c |}.

(** [Count operator++()]: the updated counter and the returned value. *)
Definition pre_increment (c : WrappedCounter) : WrappedCounter * Z :=
  let v := if m_couter c =? m_max c then 0 else Count.wrap (m_couter c + 1) in
  ({| m_couter := v; m_max := m_max c |}, v).

(** [Count operator--()]. *)
Definition pre_decrement (c : WrappedCounter) : WrappedCounter * Z :=
  let v := if m_couter c =? 0 then m_max c else Count.wrap (m_couter c - 1) in
  ({| m_couter := v; m_max := m_max c |}, v).

(** [Count operator++(int)]: returns the value before the update. *)
Definition post_increment (c : WrappedCounter) : WrappedCounter * Z :=
  let tmp := m_couter c in
  (fst (pre_increment c), tmp).

(** [Count operator--(int)]. *)
Definition post_decrement (c : WrappedCounter) : WrappedCounter * Z :=
  let tmp := m_couter c in
  (fst (pre_decrement c), tmp).

(** The counter after [++counter] and after [--counter]. *)
Definition increment (c : WrappedCounter) : WrappedCounter := fst (pre_increment c).
Definition decrement (c : WrappedCounter) : WrappedCounter := fst (pre_decrement c).

(** The class invariant: both members are [Count]s and the value lies in
    the interval [[0, max]]. *)
Definition in_interval (c : WrappedCounter) : Prop :=
  0 <= m_couter c <= m_max c /\ m_max c < Count.modulus.

(** The largest [Count] as maximum: a counter that the constructor
    accepts and that satisfies the invariant. *)
Definition full_range_counter : WrappedCounter :=
  {| m_couter := 0; m_max := Count.max_value |}.

(** ** What the demo uses of [prelab/prelab_fpga.h] *)

(** [enum class PushButton]: the six enumerators that [run_button_demo]
    switches over. *)
Module PushButton.
Inductive t : Type := None | Button0 | Button1 | Button2 | Button3 | Multiple.

Definition eqb (a b : t) : bool :=
  match a, b with
  | None, None | Button0, Button0 | Button1, Button1
  | Button2, Button2 | Button3, Button3 | Multiple, Multiple => true
  | _, _ => false
  end.

(** One of the four discrete buttons. *)
Definition is_single (b : t) : bool :=
  match b with
  | Button0 | Button1 | Button2 | Button3 => true
  | None | Multiple => false
  end.
End PushButton.

(** [constexpr Register SWITCH_EXIT_SENTINEL = 0]. *)
Definition SWITCH_EXIT_SENTINEL : Z := 0.

(** ** The board as environment *)

(** What the board shows during one period of the loop: the value that
    [PushButtonGet] returns, and the value that [ReadAllSwitches] returns
    if the loop asks for it. *)
Record Reading : Type := {
  buttons : PushButton.t;
  switches : Z
}.

(** The calls of the loop that touch the board or the clock, in program
    order, with the value returned or passed. *)
Inductive IOEvent : Type :=
| EvPushButtonGet (button_press : PushButton.t)
| EvReadAllSwitches (switch_state : Z)
| EvWriteAllLeds (leds : Z)
| EvSleep.

(** The values passed to [WriteAllLeds], in order. *)
Fixpoint led_writes (trace : list IOEvent) : list Z :=
  match trace with
  | [] => []
  | EvWriteAllLeds v :: rest => v :: led_writes rest
  | _ :: rest => led_writes rest
  end.

(** The values returned by [ReadAllSwitches], in order. *)
Fixpoint switch_reads (trace : list IOEvent) : list Z :=
  match trace with
  | [] => []
  | EvReadAllSwitches s :: rest => s :: switch_reads rest
  | _ :: rest => switch_reads rest
  end.

(** The values that a register shows one after the other when it is
    written with the given values: writing the value that it already
    holds shows nothing new. *)
Fixpoint succession (values : list Z) : list Z :=
  match values with
  | [] => []
  | v :: rest =>
      match rest with
      | [] => [v]
      | w :: _ => if v =? w then succession rest else v :: succession rest
      end
  end.

(** The number of calls of [PushButtonGet]. *)
Fixpoint button_reads (trace : list IOEvent) : nat :=
  match trace with
  | [] => O
  | EvPushButtonGet _ :: rest => S (button_reads rest)
  | _ :: rest => button_reads rest
  end.

(** The trace of periods in which the loop only polls: it reads the
    buttons and sleeps. *)
Definition polling (board : list Reading) : list IOEvent :=
  flat_map (fun r => [EvPushButtonGet (buttons r); EvSleep]) board.

(** ** [run_button_demo] *)

(** The three locals that live across iterations. *)
Record LoopState : Type := {
  counter : WrappedCounter;
  previous_button : PushButton.t;
  run_demo : bool
}.

(** Sequencing of steps that may be undefined. *)
Definition bind {A B : Type} (m : option A) (k : A -> option B) : option B :=
  match m with
  | Some a => k a
  | None => None
  end.

Notation "x <- m ;; k" := (bind m (fun x => k))
  (at level 61, m at next level, right associativity).

(** [previous_button == PushButton::Multiple && button_press != PushButton::None] *)
Definition wait_for_unpress (previous button_press : PushButton.t) : bool :=
  PushButton.eqb previous PushButton.Multiple
  && negb (PushButton.eqb button_press PushButton.None).

(** [button_press == previous_button] *)
Definition no_button_change (previous button_press : PushButton.t) : bool :=
  PushButton.eqb button_press previous.

(** The condition of the [if] that ends in [continue]. *)
Definition debounce_gate (previous button_press : PushButton.t) : bool :=
  wait_for_unpress previous button_press || no_button_change previous button_press.

(** The [switch] statement: the counter and the flag after it, and the
    board accesses it makes. *)
Definition dispatch (c : WrappedCounter) (run : bool)
    (button_press : PushButton.t) (switch_state : Z)
  : option (WrappedCounter * bool * list IOEvent) :=
  match button_press with
  | PushButton.None => Some (c, run, [])
  | PushButton.Button0 => Some (increment c, run, [])
  | PushButton.Button1 => Some (decrement c, run, [])
  | PushButton.Button2 =>
      c' <- apply c (fun count => Z.shiftr count 1) ;;
      Some (c', run, [])
  | PushButton.Button3 =>
      c' <- apply c (fun count => Count.wrap (Z.shiftl count 1)) ;;
      Some (c', run, [])
  | PushButton.Multiple =>
      c' <- apply c (fun _ => switch_state) ;;
      Some (c',
            if switch_state =? SWITCH_EXIT_SENTINEL then false else run,
            [EvReadAllSwitches switch_state])
  end.

(** One pass through the body of the [while]. *)
Definition iteration (st : LoopState) (r : Reading)
  : option (LoopState * list IOEvent) :=
  let button_press := buttons r in
  if debounce_gate (previous_button st) button_press then
    Some (st, [EvPushButtonGet button_press; EvSleep])
  else
    res <- dispatch (counter st) (run_demo st) button_press (switches r) ;;
    let '(c', run', accesses) := res in
    Some ({| counter := c'; previous_button := button_press; run_demo := run' |},
          EvPushButtonGet button_press :: accesses
            ++ [EvWriteAllLeds (Register.wrap (to_Count c')); EvSleep]).

(** [while (run_demo) { ... }] against the successive readings of the
    board.  The result is the state in which the loop stands, the trace
    so far, and the readings that the loop never asked for: the loop has
    returned exactly when [run_demo] is [false] in the resulting state. *)
Fixpoint while_run_demo (board : list Reading) (st : LoopState)
  : option (LoopState * list IOEvent * list Reading) :=
  if run_demo st then
    match board with
    | [] => Some (st, [], [])
    | r :: rest =>
        step <- iteration st r ;;
        let '(st1, evs1) := step in
        later <- while_run_demo rest st1 ;;
        let '(st2, evs2, unread) := later in
        Some (st2, evs1 ++ evs2, unread)
    end
  else Some (st, [], board).

Section Demo.

(** [LED_COUNT] is defined in [prelab/prelab_fpga.h]. *)
Variable LED_COUNT : Z.

(** [(1u << LED_COUNT) - 1], computed in [unsigned]. *)
Definition counter_max : Z :=
  Register.wrap (Register.wrap (Z.shiftl 1 LED_COUNT) - 1).

(** The locals before the first iteration. *)
Definition initial_state : LoopState :=
  {| counter := make_counter counter_max;
     previous_button := PushButton.None;
     run_demo := true |}.

Definition run_button_demo (board : list Reading)
  : option (LoopState * list IOEvent * list Reading) :=
  while_run_demo board initial_state.

(** The states in which the loop can stand at the top of an iteration. *)
Inductive reachable : LoopState -> Prop :=
| reachable_initial : reachable initial_state
| reachable_iteration st r st' evs :
    reachable st ->
    run_demo st = true ->
    iteration st r = Some (st', evs) ->
    reachable st'.

End Demo.

(** ** The input decoder *)

(** The positions of the bits that are set in a 32-bit word. *)
Definition set_bits (r : Z) : list Z :=
  flat_map (fun position => if Z.testbit r position then [position] else [])
           (map Z.of_nat (seq 0 32)).

(** The number of ones in the binary numeral of a positive number. *)
Fixpoint ones (p : positive) : nat :=
  match p with
  | xH => 1
  | xO q => ones q
  | xI q => S (ones q)
  end.


(** The button wired to a bit position of the button register. *)
Definition button_at (position : Z) : option PushButton.t :=
  if position =? 0 then Some PushButton.Button0
  else if position =? 1 then Some PushButton.Button1
  else if position =? 2 then Some PushButton.Button2
  else if position =? 3 then Some PushButton.Button3
  else None.

Section Decoder.

(** The specification names a button for the bit positions 0 to 3 only;
    what a single set bit at another position decodes to is left open
    here. *)
Variable other_line : Z -> PushButton.t.

(** Modelled from the spec: the decoding rule of [PushButtonGet], which
    is defined in [prelab/prelab_fpga.h] and not in the sources at hand.
    No bit set gives [None], exactly one bit set gives the button of
    that bit's position, more than one bit set gives [Multiple]. *)
Definition PushButtonGet (r : Z) : PushButton.t :=
  match set_bits r with
  | [] => PushButton.None
  | [position] =>
      match button_at position with
      | Some b => b
      | None => other_line position
      end
  | _ :: _ :: _ => PushButton.Multiple
  end.

End Decoder.

(** ** The end-to-end scenario of the specification *)

(** Four LEDs ([max = 15]), the counter at [15], nothing pressed before. *)
Definition scenario_start : LoopState :=
  {| counter := {| m_couter := 15; m_max := 15 |};
     previous_button := PushButton.None;
     run_demo := true |}.

(** [Button0], [Button0], [None], [Button1], over any switch positions. *)
Definition scenario_board (s1 s2 s3 s4 : Z) : list Reading :=
  [ {| buttons := PushButton.Button0; switches := s1 |};
    {| buttons := PushButton.Button0; switches := s2 |};
    {| buttons := PushButton.None; switches := s3 |};
    {| buttons := PushButton.Button1; switches := s4 |} ].

(** ** The callables and readings of the demo by name *)

(** [[](auto count) { return count >> 1u; }], the callable of [Button2]. *)
Definition shift_right (count : Z) : Z := Z.shiftr count 1.

(** [[](auto count) { return count << 1u; }], the callable of [Button3];
    the shift is taken in [Count]. *)
Definition shift_left (count : Z) : Z := Count.wrap (Z.shiftl count 1).

(** The number of calls of [std::this_thread::sleep_for]. *)
Fixpoint sleeps (trace : list IOEvent) : nat :=
  match trace with
  | [] => O
  | EvSleep :: rest => S (sleeps rest)
  | _ :: rest => sleeps rest
  end.

(** A reading on which the [Multiple] case clears [run_demo]: a chord
    while the switches show [SWITCH_EXIT_SENTINEL]. *)
Definition exit_reading (r : Reading) : bool :=
  PushButton.eqb (buttons r) PushButton.Multiple
  && (switches r =? SWITCH_EXIT_SENTINEL).

(** A chord with all switches off, and a release. *)
Definition exit_chord : Reading :=
  {| buttons := PushButton.Multiple; switches := SWITCH_EXIT_SENTINEL |}.
Definition release : Reading :=
  {| buttons := PushButton.None; switches := SWITCH_EXIT_SENTINEL |}.

(** ** Arithmetic of the counter *)

Section CounterFacts.

Lemma modulus_value : Count.modulus = 18446744073709551616.
Proof. reflexivity. Qed.

Lemma wrap_small z : Count.in_range z -> Count.wrap z = z.
Proof. unfold Count.in_range, Count.wrap. intros H. now apply Z.mod_small. Qed.

Lemma wrap_in_range z : Count.in_range (Count.wrap z).
Proof.
  unfold Count.in_range, Count.wrap.
  apply Z.mod_pos_bound. rewrite modulus_value. lia.
Qed.

Lemma pre_increment_value c :
  in_interval c ->
  snd (pre_increment c) = if m_couter c =? m_max c then 0 else m_couter c + 1.
Proof.
  intros [Hv Hm]. unfold pre_increment. cbn.
  destruct (Z.eqb_spec (m_couter c) (m_max c)) as [_ | Hne]; [reflexivity |].
  apply wrap_small. unfold Count.in_range. lia.
Qed.

Lemma pre_decrement_value c :
  in_interval c ->
  snd (pre_decrement c) = if m_couter c =? 0 then m_max c else m_couter c - 1.
Proof.
  intros [Hv Hm]. unfold pre_decrement. cbn.
  destruct (Z.eqb_spec (m_couter c) 0) as [_ | Hne]; [reflexivity |].
  apply wrap_small. unfold Count.in_range. lia.
Qed.

Lemma pre_increment_state c :
  fst (pre_increment c) = {| m_couter := snd (pre_increment c); m_max := m_max c |}.
Proof. reflexivity. Qed.

Lemma pre_decrement_state c :
  fst (pre_decrement c) = {| m_couter := snd (pre_decrement c); m_max := m_max c |}.
Proof. reflexivity. Qed.

Lemma increment_in_interval c : in_interval c -> in_interval (increment c).
Proof.
  intros H. pose proof (pre_increment_value c H) as E.
  unfold increment. rewrite pre_increment_state, E.
  destruct H as [Hv Hm]. unfold in_interval. cbn.
  destruct (Z.eqb_spec (m_couter c) (m_max c)); lia.
Qed.

Lemma decrement_in_interval c : in_interval c -> in_interval (decrement c).
Proof.
  intros H. pose proof (pre_decrement_value c H) as E.
  unfold decrement. rewrite pre_decrement_state, E.
  destruct H as [Hv Hm]. unfold in_interval. cbn.
  destruct (Z.eqb_spec (m_couter c) 0); lia.
Qed.

(** With [m_max + 1] representable, [apply] is defined and reduces the
    callable's result modulo [m_max + 1]. *)
Lemma apply_defined c func :
  0 <= m_max c < Count.max_value ->
  apply c func =
    Some {| m_couter := Count.wrap (func (m_couter c)) mod (m_max c + 1);
            m_max := m_max c |}.
Proof.
  unfold Count.max_value. intros Hm. unfold apply.
  rewrite (wrap_small (m_max c + 1)) by (unfold Count.in_range; lia).
  destruct (Z.eqb_spec (m_max c + 1) 0); [lia | reflexivity].
Qed.

Lemma remainder_in_interval x m :
  0 <= m < Count.max_value ->
  in_interval {| m_couter := x mod (m + 1); m_max := m |}.
Proof.
  unfold in_interval, Count.max_value. cbn [m_couter m_max]. intros Hm.
  pose proof (Z.mod_pos_bound x (m + 1)). lia.
Qed.

Lemma apply_in_interval c func c' :
  0 <= m_max c < Count.max_value ->
  apply c func = Some c' ->
  in_interval c' /\ m_max c' = m_max c.
Proof.
  intros Hm E. rewrite (apply_defined c func Hm) in E.
  injection E as <-. unfold in_interval, Count.max_value in *. cbn.
  pose proof (Z.mod_pos_bound (Count.wrap (func (m_couter c))) (m_max c + 1)).
  lia.
Qed.

End CounterFacts.

(** Closes the side conditions on concrete counters. *)
Ltac concrete_interval :=
  unfold in_interval, full_range_counter; cbn [m_couter m_max counter];
  unfold Count.in_range, Count.max_value; rewrite ?modulus_value; lia.

(** ** The counter operations against the specification *)


(** X15: for every counter whose maximum is below the largest [Count]
    and every [func : Count -> Count], [apply] stores
    [func value mod (max + 1)], which lies in [[0, max]] whatever [func]
    returns, and keeps the maximum; the increments and decrements, prefix
    and postfix, keep the value in [[0, max]] for every maximum. *)
Theorem apply_wraps_into_interval (c : WrappedCounter) (func : Z -> Z) :
  in_interval c ->
  (forall count, Count.in_range count -> Count.in_range (func count)) ->
  (m_max c < Count.max_value ->
   exists c',
     apply c func = Some c' /\
     m_couter c' = func (m_couter c) mod (m_max c + 1) /\
     m_max c' = m_max c /\
     0 <= to_Count c' <= m_max c' /\
     in_interval c') /\
  in_interval (fst (pre_increment c)) /\
  in_interval (fst (pre_decrement c)) /\
  in_interval (fst (post_increment c)) /\
  in_interval (fst (post_decrement c)).
Proof.
  intros Hc Hfunc. split.
  - intros Hmax.
    assert (Hm : 0 <= m_max c < Count.max_value) by (destruct Hc; lia).
    eexists. split; [apply apply_defined; exact Hm |].
    rewrite wrap_small by (apply Hfunc; destruct Hc; unfold Count.in_range; lia).
    pose proof (remainder_in_interval (func (m_couter c)) _ Hm) as Hr.
    repeat split; try apply Hr.
  - repeat split;
      solve [ apply (increment_in_interval c Hc) | apply (decrement_in_interval c Hc) ].
Qed.

Lemma apply_wraps_into_interval_witness :
  exists c',
    apply {| m_couter := 9; m_max := 15 |} (fun count => Count.wrap (Z.shiftl count 1))
      = Some c' /\
    m_couter c' = 2.
Proof.
  destruct (apply_wraps_into_interval
              {| m_couter := 9; m_max := 15 |}
              (fun count => Count.wrap (Z.shiftl count 1)))
    as [H _].
  - concrete_interval.
  - intros count _. apply wrap_in_range.
  - destruct H as (c' & E & V & _); [concrete_interval |].
    exists c'. split; [exact E | rewrite V; reflexivity].
Defined.

(** C2: on a counter whose value [v] is in [[0, max]], [++counter] stores
    [0] if [v = max] and [v + 1] otherwise, and returns the stored value. *)
Theorem pre_increment_spec (c : WrappedCounter) :
  in_interval c ->
  let v' := if m_couter c =? m_max c then 0 else m_couter c + 1 in
  pre_increment c = ({| m_couter := v'; m_max := m_max c |}, v').
Proof.
  intros Hc v'. rewrite (surjective_pairing (pre_increment c)).
  rewrite pre_increment_state, (pre_increment_value c Hc). reflexivity.
Qed.

Lemma pre_increment_spec_witness :
  pre_increment {| m_couter := 15; m_max := 15 |} = ({| m_couter := 0; m_max := 15 |}, 0) /\
  pre_increment {| m_couter := 7; m_max := 15 |} = ({| m_couter := 8; m_max := 15 |}, 8).
Proof.
  split.
  - apply (pre_increment_spec {| m_couter := 15; m_max := 15 |}).
    concrete_interval.
  - apply (pre_increment_spec {| m_couter := 7; m_max := 15 |}).
    concrete_interval.
Defined.

(** C3: on a counter whose value [v] is in [[0, max]], [--counter] stores
    [max] if [v = 0] and [v - 1] otherwise, and returns the stored value. *)
Theorem pre_decrement_spec (c : WrappedCounter) :
  in_interval c ->
  let v' := if m_couter c =? 0 then m_max c else m_couter c - 1 in
  pre_decrement c = ({| m_couter := v'; m_max := m_max c |}, v').
Proof.
  intros Hc v'. rewrite (surjective_pairing (pre_decrement c)).
  rewrite pre_decrement_state, (pre_decrement_value c Hc). reflexivity.
Qed.

Lemma pre_decrement_spec_witness :
  pre_decrement {| m_couter := 0; m_max := 15 |} = ({| m_couter := 15; m_max := 15 |}, 15) /\
  pre_decrement {| m_couter := 7; m_max := 15 |} = ({| m_couter := 6; m_max := 15 |}, 6).
Proof.
  split.
  - apply (pre_decrement_spec {| m_couter := 0; m_max := 15 |}).
    concrete_interval.
  - apply (pre_decrement_spec {| m_couter := 7; m_max := 15 |}).
    concrete_interval.
Defined.

(** ** Increment and decrement as a cycle *)

Section Cycle.

Lemma increment_eq c :
  in_interval c ->
  increment c =
    {| m_couter := if m_couter c =? m_max c then 0 else m_couter c + 1;
       m_max := m_max c |}.
Proof.
  intros Hc. unfold increment.
  now rewrite pre_increment_state, pre_increment_value.
Qed.

Lemma decrement_eq c :
  in_interval c ->
  decrement c =
    {| m_couter := if m_couter c =? 0 then m_max c else m_couter c - 1;
       m_max := m_max c |}.
Proof.
  intros Hc. unfold decrement.
  now rewrite pre_decrement_state, pre_decrement_value.
Qed.

(** On the interval, [++] is the successor modulo [max + 1]. *)
Lemma increment_mod c :
  in_interval c ->
  increment c =
    {| m_couter := (m_couter c + 1) mod (m_max c + 1); m_max := m_max c |}.
Proof.
  intros Hc. rewrite (increment_eq c Hc). f_equal.
  destruct Hc as [Hv _].
  destruct (Z.eqb_spec (m_couter c) (m_max c)) as [-> | Hne].
  - now rewrite Z.mod_same by lia.
  - rewrite Z.mod_small; lia.
Qed.

(** [n] increments add [n] modulo [max + 1]. *)
Lemma iter_increment (n : nat) c :
  in_interval c ->
  Nat.iter n increment c =
    {| m_couter := (m_couter c + Z.of_nat n) mod (m_max c + 1); m_max := m_max c |}.
Proof.
  intros Hc. induction n as [| n IH].
  - change (Nat.iter 0 increment c) with c.
    rewrite Z.add_0_r, Z.mod_small by (destruct Hc; lia).
    now destruct c.
  - change (Nat.iter (S n) increment c) with (increment (Nat.iter n increment c)).
    rewrite IH.
    assert (Hpos : 0 < m_max c + 1) by (destruct Hc; lia).
    rewrite increment_mod.
    + cbn [m_couter m_max]. f_equal.
      rewrite Z.add_mod_idemp_l by lia. f_equal. lia.
    + pose proof (Z.mod_pos_bound (m_couter c + Z.of_nat n) _ Hpos).
      destruct Hc. unfold in_interval. cbn [m_couter m_max]. lia.
Qed.

End Cycle.

(** C7: for a value in [[0, max]], [++] after [--] and [--] after [++]
    both give the counter back. *)
Theorem increment_decrement_inverse (c : WrappedCounter) :
  in_interval c ->
  increment (decrement c) = c /\ decrement (increment c) = c.
Proof.
  intros Hc.
  pose proof (decrement_in_interval c Hc) as Hd.
  pose proof (increment_in_interval c Hc) as Hi.
  rewrite (increment_eq _ Hd), (decrement_eq _ Hi).
  rewrite (decrement_eq c Hc), (increment_eq c Hc).
  destruct c as [v m], Hc as [Hv Hm]. cbn in *.
  split; f_equal.
  - destruct (Z.eqb_spec v 0) as [-> | Hne].
    + now rewrite Z.eqb_refl.
    + destruct (Z.eqb_spec (v - 1) m); lia.
  - destruct (Z.eqb_spec v m) as [-> | Hne].
    + now rewrite Z.eqb_refl.
    + destruct (Z.eqb_spec (v + 1) 0); lia.
Qed.

Lemma increment_decrement_inverse_witness :
  increment (decrement {| m_couter := 0; m_max := 15 |}) = {| m_couter := 0; m_max := 15 |} /\
  decrement (increment {| m_couter := 15; m_max := 15 |}) = {| m_couter := 15; m_max := 15 |}.
Proof.
  split.
  - apply (increment_decrement_inverse {| m_couter := 0; m_max := 15 |}). concrete_interval.
  - apply (increment_decrement_inverse {| m_couter := 15; m_max := 15 |}). concrete_interval.
Defined.

(** C8: for a value in [[0, max]], [max + 1] increments in a row give the
    counter back. *)
Theorem increment_full_cycle (c : WrappedCounter) :
  in_interval c ->
  Nat.iter (Z.to_nat (m_max c + 1)) increment c = c.
Proof.
  intros Hc. rewrite (iter_increment _ c Hc).
  destruct c as [v m], Hc as [Hv Hm]. cbn in *.
  rewrite Z2Nat.id by lia. f_equal.
  replace (v + (m + 1)) with (v + 1 * (m + 1)) by lia.
  rewrite Z.mod_add by lia. apply Z.mod_small. lia.
Qed.

Lemma increment_full_cycle_witness :
  Nat.iter 16 increment {| m_couter := 11; m_max := 15 |} = {| m_couter := 11; m_max := 15 |}.
Proof.
  apply (increment_full_cycle {| m_couter := 11; m_max := 15 |}). concrete_interval.
Defined.

(** ** The debounce gate *)

Section Gate.

Lemma eqb_eq (a b : PushButton.t) : PushButton.eqb a b = true <-> a = b.
Proof. destruct a, b; cbn; split; intros H; try reflexivity; discriminate H. Qed.

Lemma eqb_neq (a b : PushButton.t) : PushButton.eqb a b = false <-> a <> b.
Proof.
  split.
  - intros H E. apply eqb_eq in E. congruence.
  - intros H. destruct (PushButton.eqb a b) eqn:E; [| reflexivity].
    apply eqb_eq in E. contradiction.
Qed.

(** The gate in the words of the specification. *)
Lemma debounce_gate_spec previous button_press :
  debounce_gate previous button_press = true <->
  (previous = PushButton.Multiple /\ button_press <> PushButton.None)
  \/ button_press = previous.
Proof.
  unfold debounce_gate, wait_for_unpress, no_button_change.
  rewrite orb_true_iff, andb_true_iff, negb_true_iff, !eqb_eq, eqb_neq.
  reflexivity.
Qed.

Lemma gate_after_chord button_press :
  button_press <> PushButton.None ->
  debounce_gate PushButton.Multiple button_press = true.
Proof. intros H. apply debounce_gate_spec. left. now split. Qed.

Lemma single_not_none b : PushButton.is_single b = true -> b <> PushButton.None.
Proof. destruct b; cbn; congruence. Qed.

(** A period in which the gate fires. *)
Lemma iteration_skipped st r :
  debounce_gate (previous_button st) (buttons r) = true ->
  iteration st r = Some (st, [EvPushButtonGet (buttons r); EvSleep]).
Proof. intros G. unfold iteration. now rewrite G. Qed.

(** A period in which nothing is pressed and the gate is open: the LEDs
    are rewritten with the unchanged counter. *)
Lemma iteration_released st r :
  buttons r = PushButton.None ->
  previous_button st <> PushButton.None ->
  iteration st r =
    Some ({| counter := counter st;
             previous_button := PushButton.None;
             run_demo := run_demo st |},
          [EvPushButtonGet PushButton.None;
           EvWriteAllLeds (Register.wrap (to_Count (counter st)));
           EvSleep]).
Proof.
  intros E P. unfold iteration. rewrite E.
  destruct (previous_button st); try contradiction; reflexivity.
Qed.

(** Once the flag is cleared the loop has returned. *)
Lemma while_run_demo_returned board st :
  run_demo st = false -> while_run_demo board st = Some (st, [], board).
Proof. intros R. destruct board; cbn [while_run_demo]; now rewrite R. Qed.

(** While something stays pressed after a chord, the loop only polls. *)
Lemma waiting_polls board : forall st,
  previous_button st = PushButton.Multiple ->
  run_demo st = true ->
  Forall (fun r => buttons r <> PushButton.None) board ->
  while_run_demo board st = Some (st, polling board, []).
Proof.
  induction board as [| r rest IH]; intros st P R F; cbn [while_run_demo]; rewrite R.
  - reflexivity.
  - inversion F as [| ? ? Hr Hrest]; subst.
    rewrite iteration_skipped by (rewrite P; now apply gate_after_chord).
    cbn [bind]. rewrite (IH st P R Hrest). reflexivity.
Qed.

Lemma polling_quiet board :
  led_writes (polling board) = [] /\ switch_reads (polling board) = [].
Proof. induction board as [| r rest [IHl IHs]]; cbn; auto. Qed.

Lemma polling_button_reads board : button_reads (polling board) = length board.
Proof. unfold polling. induction board as [| r rest IH]; cbn; congruence. Qed.

End Gate.

(** C10: in a period in which the gate fires (the previous state is
    [Multiple] and something is still pressed, or the buttons have not
    changed), the loop reads the buttons and sleeps and does nothing
    else: counter, [previous_button] and the flag are as before and the
    LEDs are not written. *)
Theorem gate_skips_iteration (st : LoopState) (r : Reading) :
  (previous_button st = PushButton.Multiple /\ buttons r <> PushButton.None)
  \/ buttons r = previous_button st ->
  exists st' evs,
    iteration st r = Some (st', evs) /\
    counter st' = counter st /\
    previous_button st' = previous_button st /\
    run_demo st' = run_demo st /\
    led_writes evs = [] /\
    switch_reads evs = [] /\
    evs = [EvPushButtonGet (buttons r); EvSleep].
Proof.
  intros G. apply debounce_gate_spec in G.
  exists st, [EvPushButtonGet (buttons r); EvSleep].
  rewrite (iteration_skipped st r G). repeat split; reflexivity.
Qed.

Lemma gate_skips_iteration_witness :
  exists st' evs,
    iteration {| counter := {| m_couter := 3; m_max := 15 |};
                 previous_button := PushButton.Button0;
                 run_demo := true |}
              {| buttons := PushButton.Button0; switches := 5 |} = Some (st', evs) /\
    counter st' = {| m_couter := 3; m_max := 15 |} /\
    led_writes evs = [].
Proof.
  destruct (gate_skips_iteration
              {| counter := {| m_couter := 3; m_max := 15 |};
                 previous_button := PushButton.Button0;
                 run_demo := true |}
              {| buttons := PushButton.Button0; switches := 5 |})
    as (st' & evs & E & C & _ & _ & L & _).
  - right. reflexivity.
  - exists st', evs. repeat split; assumption.
Defined.

(** C4: from a state whose previous button state is [Multiple], as long
    as every reading is a single button the loop only polls: the counter
    is not touched, the switches are not read, the LEDs are not written
    and the state stays as it is.  And whatever the readings are, a period
    that changes the counter or reads the switches comes after a reading
    of [None]. *)
Theorem chord_release_debounce (st : LoopState) (board : list Reading) :
  previous_button st = PushButton.Multiple ->
  Forall (fun r => PushButton.is_single (buttons r) = true) board ->
  (exists trace unread,
      while_run_demo board st = Some (st, trace, unread) /\
      led_writes trace = [] /\
      switch_reads trace = [] /\
      (run_demo st = true -> trace = polling board /\ unread = [])) /\
  (forall later r st1 trace st2 evs,
      while_run_demo later st = Some (st1, trace, []) ->
      run_demo st1 = true ->
      iteration st1 r = Some (st2, evs) ->
      counter st2 <> counter st1 \/ switch_reads evs <> [] ->
      Exists (fun x => buttons x = PushButton.None) later).
Proof.
  intros P F. split.
  - destruct (run_demo st) eqn:R.
    + exists (polling board), []. split; [| split; [| split]]; auto; try apply polling_quiet.
      apply waiting_polls; trivial.
      eapply Forall_impl; [| exact F]. intros r. apply single_not_none.
    + exists [], board. split; [| split; [| split]]; auto; try discriminate.
      now apply while_run_demo_returned.
  - intros later r st1 trace st2 evs Hrun R1 Hit Hact.
    assert (R : run_demo st = true).
    { destruct (run_demo st) eqn:R; [reflexivity |].
      rewrite (while_run_demo_returned later st R) in Hrun.
      injection Hrun as <- _ _. congruence. }
    assert (D : forall x : Reading,
               {buttons x <> PushButton.None} + {~ buttons x <> PushButton.None}).
    { intros x. destruct (buttons x); [right | left ..]; try discriminate.
      intros H. now apply H. }
    destruct (Forall_Exists_dec _ D later) as [Hall | Hex].
    + exfalso.
      rewrite (waiting_polls later st P R Hall) in Hrun.
      injection Hrun as <- _.
      destruct (buttons r) eqn:B.
      1: { rewrite iteration_released in Hit by (trivial; rewrite P; discriminate).
           injection Hit as <- <-. cbn [switch_reads counter] in Hact.
           destruct Hact; contradiction. }
      all: rewrite iteration_skipped in Hit
             by (rewrite P, B; apply gate_after_chord; discriminate);
           injection Hit as <- <-; cbn [switch_reads counter] in Hact;
           destruct Hact; contradiction.
    + eapply Exists_impl; [| exact Hex].
      intros x Hx. cbn in Hx. destruct (buttons x); try reflexivity;
        exfalso; apply Hx; discriminate.
Qed.

Lemma chord_release_debounce_witness :
  exists trace unread,
    while_run_demo
      [ {| buttons := PushButton.Button0; switches := 3 |};
        {| buttons := PushButton.Button2; switches := 3 |} ]
      {| counter := {| m_couter := 3; m_max := 15 |};
         previous_button := PushButton.Multiple;
         run_demo := true |}
    = Some ({| counter := {| m_couter := 3; m_max := 15 |};
               previous_button := PushButton.Multiple;
               run_demo := true |},
            trace, unread) /\
    led_writes trace = [] /\
    switch_reads trace = [].
Proof.
  destruct (chord_release_debounce
              {| counter := {| m_couter := 3; m_max := 15 |};
                 previous_button := PushButton.Multiple;
                 run_demo := true |}
              [ {| buttons := PushButton.Button0; switches := 3 |};
                {| buttons := PushButton.Button2; switches := 3 |} ])
    as [(trace & unread & E & L & S & _) _].
  - reflexivity.
  - repeat constructor.
  - exists trace, unread. repeat split; assumption.
Defined.

(** ** The chord: switches onto the LEDs, and the way out *)

Section Chord.

Lemma register_is_count s : Register.in_range s -> Count.in_range s.
Proof.
  unfold Register.in_range, Count.in_range.
  change Register.modulus with 4294967296. rewrite modulus_value. lia.
Qed.

(** The [Multiple] case of the [switch]. *)
Lemma dispatch_chord c run s :
  0 <= m_max c < Count.max_value ->
  Register.in_range s ->
  dispatch c run PushButton.Multiple s =
    Some ({| m_couter := s mod (m_max c + 1); m_max := m_max c |},
          (if s =? SWITCH_EXIT_SENTINEL then false else run),
          [EvReadAllSwitches s]).
Proof.
  intros Hm Hs. cbn [dispatch].
  rewrite (apply_defined c _ Hm). cbn [bind].
  now rewrite (wrap_small s (register_is_count s Hs)).
Qed.

(** A value in the interval of a 32-bit maximum goes to the LED
    register as it is. *)
Lemma leds_show_counter v m :
  0 <= v <= m -> Register.in_range m -> Register.wrap v = v.
Proof.
  unfold Register.in_range, Register.wrap. intros Hv Hm.
  apply Z.mod_small. lia.
Qed.

End Chord.

(** C5: in a period in which the gate is open and the buttons decode to
    [Multiple], the loop reads the switches and stores their value modulo
    [max + 1] in the counter, which it writes to the LEDs; if the switches
    show [SWITCH_EXIT_SENTINEL] the LEDs are written with [0], the flag is
    cleared, and the loop returns at once: the readings that follow are
    never asked for.  The bound on the maximum holds in every state of
    the demo, whose maximum is a 32-bit value. *)
Theorem chord_reads_switches (st : LoopState) (r : Reading) (rest : list Reading) :
  run_demo st = true ->
  0 <= m_max (counter st) < Count.max_value ->
  Register.in_range (switches r) ->
  buttons r = PushButton.Multiple ->
  debounce_gate (previous_button st) (buttons r) = false ->
  let max := m_max (counter st) in
  let c' := {| m_couter := switches r mod (max + 1); m_max := max |} in
  iteration st r =
    Some ({| counter := c';
             previous_button := PushButton.Multiple;
             run_demo := negb (switches r =? SWITCH_EXIT_SENTINEL) |},
          [EvPushButtonGet PushButton.Multiple;
           EvReadAllSwitches (switches r);
           EvWriteAllLeds (Register.wrap (switches r mod (max + 1)));
           EvSleep]) /\
  (switches r = SWITCH_EXIT_SENTINEL ->
   while_run_demo (r :: rest) st =
     Some ({| counter := {| m_couter := 0; m_max := max |};
              previous_button := PushButton.Multiple;
              run_demo := false |},
           [EvPushButtonGet PushButton.Multiple;
            EvReadAllSwitches SWITCH_EXIT_SENTINEL;
            EvWriteAllLeds 0;
            EvSleep],
           rest)).
Proof.
  intros R Hm Hs B G max c'.
  assert (E : iteration st r =
    Some ({| counter := c';
             previous_button := PushButton.Multiple;
             run_demo := negb (switches r =? SWITCH_EXIT_SENTINEL) |},
          [EvPushButtonGet PushButton.Multiple;
           EvReadAllSwitches (switches r);
           EvWriteAllLeds (Register.wrap (switches r mod (max + 1)));
           EvSleep])).
  { unfold iteration. rewrite G, B, (dispatch_chord _ _ _ Hm Hs), R.
    cbn [bind app to_Count m_couter].
    now destruct (switches r =? SWITCH_EXIT_SENTINEL). }
  split; [exact E |].
  intros Z0. cbn [while_run_demo]. rewrite R, E. cbn [bind]. subst c'.
  rewrite Z0. unfold SWITCH_EXIT_SENTINEL.
  rewrite Z.mod_0_l by (subst max; lia).
  rewrite while_run_demo_returned by reflexivity. reflexivity.
Qed.

Lemma chord_reads_switches_witness :
  while_run_demo
    [ {| buttons := PushButton.Multiple; switches := 0 |};
      {| buttons := PushButton.Button0; switches := 0 |} ]
    {| counter := {| m_couter := 9; m_max := 15 |};
       previous_button := PushButton.None;
       run_demo := true |}
  = Some ({| counter := {| m_couter := 0; m_max := 15 |};
             previous_button := PushButton.Multiple;
             run_demo := false |},
          [EvPushButtonGet PushButton.Multiple;
           EvReadAllSwitches 0;
           EvWriteAllLeds 0;
           EvSleep],
          [ {| buttons := PushButton.Button0; switches := 0 |} ]).
Proof.
  apply (chord_reads_switches
           {| counter := {| m_couter := 9; m_max := 15 |};
              previous_button := PushButton.None;
              run_demo := true |}
           {| buttons := PushButton.Multiple; switches := 0 |}
           [ {| buttons := PushButton.Button0; switches := 0 |} ]).
  - reflexivity.
  - concrete_interval.
  - unfold Register.in_range. cbn. change Register.modulus with 4294967296. lia.
  - reflexivity.
  - reflexivity.
  - reflexivity.
Defined.

(** ** The loop keeps the counter well formed *)

Section LoopInvariant.

Variable LED_COUNT : Z.

Lemma counter_max_register : Register.in_range (counter_max LED_COUNT).
Proof.
  unfold counter_max, Register.in_range, Register.wrap.
  apply Z.mod_pos_bound. reflexivity.
Qed.

Lemma counter_max_below_max_value : 0 <= counter_max LED_COUNT < Count.max_value.
Proof.
  pose proof counter_max_register as H. unfold Register.in_range in H.
  change Register.modulus with 4294967296 in H.
  unfold Count.max_value. rewrite modulus_value. lia.
Qed.

(** The [switch] is defined on a well-formed counter whose maximum is
    below the largest [Count], and leaves such a counter. *)
Lemma dispatch_invariant c run button_press s :
  in_interval c ->
  m_max c < Count.max_value ->
  exists c' run' accesses,
    dispatch c run button_press s = Some (c', run', accesses) /\
    in_interval c' /\ m_max c' = m_max c.
Proof.
  intros Hc Hmax.
  assert (Hm : 0 <= m_max c < Count.max_value) by (destruct Hc; lia).
  destruct button_press; cbn [dispatch].
  - exists c, run, []. auto.
  - exists (increment c), run, []. auto using increment_in_interval.
  - exists (decrement c), run, []. auto using decrement_in_interval.
  - rewrite (apply_defined c _ Hm). cbn [bind]. do 3 eexists. split; [reflexivity |].
    split; [now apply remainder_in_interval | reflexivity].
  - rewrite (apply_defined c _ Hm). cbn [bind]. do 3 eexists. split; [reflexivity |].
    split; [now apply remainder_in_interval | reflexivity].
  - rewrite (apply_defined c _ Hm). cbn [bind]. do 3 eexists. split; [reflexivity |].
    split; [now apply remainder_in_interval | reflexivity].
Qed.

Lemma iteration_invariant st r :
  in_interval (counter st) ->
  m_max (counter st) < Count.max_value ->
  exists st' evs,
    iteration st r = Some (st', evs) /\
    in_interval (counter st') /\ m_max (counter st') = m_max (counter st).
Proof.
  intros Hc Hmax. unfold iteration.
  destruct (debounce_gate (previous_button st) (buttons r)).
  - exists st. eexists. auto.
  - destruct (dispatch_invariant (counter st) (run_demo st) (buttons r) (switches r) Hc Hmax)
      as (c' & run' & accesses & E & Hc' & Hm').
    rewrite E. cbn [bind]. do 2 eexists. split; [reflexivity |]. auto.
Qed.

(** Every state of the demo has a counter in [[0, max]] with
    [max = (1u << LED_COUNT) - 1]. *)
Lemma reachable_invariant st :
  reachable LED_COUNT st ->
  in_interval (counter st) /\ m_max (counter st) = counter_max LED_COUNT.
Proof.
  pose proof counter_max_below_max_value as Hmax.
  induction 1 as [| st r st' evs Hreach [Hc Hm] Hrun Hit].
  - unfold in_interval, Count.max_value in *. cbn. lia.
  - destruct (iteration_invariant st r Hc) as (st1 & evs1 & E & Hc1 & Hm1); [lia |].
    rewrite Hit in E. injection E as <- <-. split; congruence.
Qed.

(** In particular [max + 1] is representable in every state of the
    demo, which is what [apply] needs. *)
Lemma reachable_max_bound st :
  reachable LED_COUNT st -> 0 <= m_max (counter st) < Count.max_value.
Proof.
  intros H. destruct (reachable_invariant st H) as [_ ->].
  apply counter_max_below_max_value.
Qed.

(** The demo never takes a remainder by zero: against any readings the
    loop is defined. *)
Lemma while_run_demo_defined board : forall st,
  in_interval (counter st) ->
  m_max (counter st) < Count.max_value ->
  exists st' trace unread, while_run_demo board st = Some (st', trace, unread).
Proof.
  induction board as [| r rest IH]; intros st Hc Hmax; cbn [while_run_demo];
    destruct (run_demo st); try (do 3 eexists; reflexivity).
  destruct (iteration_invariant st r Hc Hmax) as (st1 & evs1 & E & Hc1 & Hm1).
  rewrite E. cbn [bind].
  destruct (IH st1 Hc1) as (st2 & evs2 & unread & E2); [lia |].
  rewrite E2. cbn [bind]. do 3 eexists. reflexivity.
Qed.

Lemma run_button_demo_defined board :
  exists st' trace unread, run_button_demo LED_COUNT board = Some (st', trace, unread).
Proof.
  apply while_run_demo_defined; destruct (reachable_invariant _ (reachable_initial LED_COUNT)).
  - assumption.
  - pose proof counter_max_below_max_value. lia.
Qed.

End LoopInvariant.

(** ** The scenario *)

(** With four LEDs the demo reaches the state from which the scenario
    starts: [Button1] takes the counter from [0] to [15], then the button
    is released. *)
Lemma scenario_start_reachable : reachable 4 scenario_start.
Proof.
  eapply (reachable_iteration 4 _ {| buttons := PushButton.None; switches := 0 |});
    [ eapply (reachable_iteration 4 _ {| buttons := PushButton.Button1; switches := 0 |});
      [ apply reachable_initial | reflexivity | reflexivity ]
    | reflexivity | reflexivity ].
Qed.

(** C9: from the counter at [15] with [max = 15] and nothing pressed
    before, the readings [Button0], [Button0], [None], [Button1] go as
    follows.  The first [Button0] increments the counter to [0]; the
    second is skipped by the gate; on [None] the [switch] does nothing,
    the counter stays at [0] and the LEDs are written with it once more;
    [Button1] decrements the counter to [15].  The LED register shows
    [0] and then [15]: it is written with [0], [0] and [15]. *)
Theorem scenario_trace (s1 s2 s3 s4 : Z) :
  let after c p := {| counter := {| m_couter := c; m_max := 15 |};
                      previous_button := p; run_demo := true |} in
  let press b s := {| buttons := b; switches := s |} in
  iteration scenario_start (press PushButton.Button0 s1)
    = Some (after 0 PushButton.Button0,
            [EvPushButtonGet PushButton.Button0; EvWriteAllLeds 0; EvSleep]) /\
  iteration (after 0 PushButton.Button0) (press PushButton.Button0 s2)
    = Some (after 0 PushButton.Button0,
            [EvPushButtonGet PushButton.Button0; EvSleep]) /\
  iteration (after 0 PushButton.Button0) (press PushButton.None s3)
    = Some (after 0 PushButton.None,
            [EvPushButtonGet PushButton.None; EvWriteAllLeds 0; EvSleep]) /\
  iteration (after 0 PushButton.None) (press PushButton.Button1 s4)
    = Some (after 15 PushButton.Button1,
            [EvPushButtonGet PushButton.Button1; EvWriteAllLeds 15; EvSleep]) /\
  exists trace,
    while_run_demo (scenario_board s1 s2 s3 s4) scenario_start
      = Some (after 15 PushButton.Button1, trace, []) /\
    led_writes trace = [0; 0; 15] /\
    succession (led_writes trace) = [0; 15] /\
    switch_reads trace = [] /\
    button_reads trace = 4%nat.
Proof.
  intros after press. repeat (split; [reflexivity |]).
  eexists. split; [reflexivity |]. repeat split.
Qed.

(** ** The input decoder *)

Section DecoderFacts.

Lemma button_at_position i b : button_at i = Some b -> 0 <= i <= 3.
Proof.
  unfold button_at.
  repeat match goal with
         | |- context [?x =? ?y] => destruct (Z.eqb_spec x y); [lia |]
         end.
  discriminate.
Qed.


Lemma set_bits_sound r i :
  In i (set_bits r) -> 0 <= i < 32 /\ Z.testbit r i = true.
Proof.
  unfold set_bits. rewrite in_flat_map.
  intros (j & Hj & Hin). apply in_map_iff in Hj. destruct Hj as (n & <- & Hn).
  apply in_seq in Hn.
  destruct (Z.testbit r (Z.of_nat n)) eqn:Hb; [| contradiction].
  destruct Hin as [<- | []]. split; [lia | exact Hb].
Qed.







(** A word with a single set bit lists the position of that bit. *)
Lemma single_bit_words :
  Forall (fun position => set_bits (2 ^ position) = [position])
         (map Z.of_nat (seq 0 32)).
Proof. repeat constructor. Qed.

(** The sixteen positions of four button lines. *)
Lemma four_lines other_line :
  map (PushButtonGet other_line) (map Z.of_nat (seq 0 16)) =
    [ PushButton.None; PushButton.Button0; PushButton.Button1; PushButton.Multiple;
      PushButton.Button2; PushButton.Multiple; PushButton.Multiple; PushButton.Multiple;
      PushButton.Button3; PushButton.Multiple; PushButton.Multiple; PushButton.Multiple;
      PushButton.Multiple; PushButton.Multiple; PushButton.Multiple; PushButton.Multiple ].
Proof. reflexivity. Qed.

End DecoderFacts.



(** * Further properties of the counter *)

Section Modular.

(** On the interval, [--] is the predecessor modulo [max + 1]. *)
Lemma decrement_mod c :
  in_interval c ->
  decrement c =
    {| m_couter := (m_couter c - 1) mod (m_max c + 1); m_max := m_max c |}.
Proof.
  intros Hc. rewrite (decrement_eq c Hc). f_equal.
  destruct Hc as [Hv _].
  destruct (Z.eqb_spec (m_couter c) 0) as [-> | Hne].
  - replace (0 - 1) with (m_max c + (-1) * (m_max c + 1)) by lia.
    rewrite Z.mod_add by lia. rewrite Z.mod_small; lia.
  - rewrite Z.mod_small; lia.
Qed.

Lemma iter_decrement (n : nat) c :
  in_interval c ->
  Nat.iter n decrement c =
    {| m_couter := (m_couter c - Z.of_nat n) mod (m_max c + 1); m_max := m_max c |}.
Proof.
  intros Hc. induction n as [| n IH].
  - change (Nat.iter 0 decrement c) with c.
    rewrite Z.sub_0_r, Z.mod_small by (destruct Hc; lia).
    now destruct c.
  - change (Nat.iter (S n) decrement c) with (decrement (Nat.iter n decrement c)).
    rewrite IH.
    assert (Hpos : 0 < m_max c + 1) by (destruct Hc; lia).
    rewrite decrement_mod.
    + cbn [m_couter m_max]. f_equal.
      rewrite Zminus_mod_idemp_l. f_equal. lia.
    + pose proof (Z.mod_pos_bound (m_couter c - Z.of_nat n) _ Hpos).
      destruct Hc. unfold in_interval. cbn [m_couter m_max]. lia.
Qed.

End Modular.

(** X1: the counter is arithmetic modulo [max + 1]: from a value [v] in
    [[0, max]], [n] increments leave [(v + n) mod (max + 1)] and [n]
    decrements leave [(v - n) mod (max + 1)]. *)
Theorem counter_is_modular (c : WrappedCounter) (n : nat) :
  in_interval c ->
  m_couter (Nat.iter n increment c) = (m_couter c + Z.of_nat n) mod (m_max c + 1) /\
  m_couter (Nat.iter n decrement c) = (m_couter c - Z.of_nat n) mod (m_max c + 1) /\
  m_max (Nat.iter n increment c) = m_max c /\
  m_max (Nat.iter n decrement c) = m_max c.
Proof.
  intros Hc. rewrite (iter_increment n c Hc), (iter_decrement n c Hc).
  repeat split.
Qed.

Lemma counter_is_modular_witness :
  m_couter (Nat.iter 5 increment {| m_couter := 14; m_max := 15 |}) = 3 /\
  m_couter (Nat.iter 5 decrement {| m_couter := 2; m_max := 15 |}) = 13.
Proof.
  split.
  - destruct (counter_is_modular {| m_couter := 14; m_max := 15 |} 5) as (H & _).
    + concrete_interval.
    + rewrite H. reflexivity.
  - destruct (counter_is_modular {| m_couter := 2; m_max := 15 |} 5) as (_ & H & _).
    + concrete_interval.
    + rewrite H. reflexivity.
Defined.

(** X2: the postfix operators return the value the counter had before
    and store what the prefix operators store: [counter++] wraps from
    [max] to [0], [counter--] from [0] to [max]. *)
Theorem postfix_returns_old_value (c : WrappedCounter) :
  in_interval c ->
  post_increment c =
    ({| m_couter := if m_couter c =? m_max c then 0 else m_couter c + 1;
        m_max := m_max c |}, m_couter c) /\
  post_decrement c =
    ({| m_couter := if m_couter c =? 0 then m_max c else m_couter c - 1;
        m_max := m_max c |}, m_couter c).
Proof.
  intros Hc. unfold post_increment, post_decrement.
  fold (increment c). fold (decrement c).
  now rewrite (increment_eq c Hc), (decrement_eq c Hc).
Qed.

Lemma postfix_returns_old_value_witness :
  post_increment {| m_couter := 15; m_max := 15 |} = ({| m_couter := 0; m_max := 15 |}, 15) /\
  post_decrement {| m_couter := 0; m_max := 15 |} = ({| m_couter := 15; m_max := 15 |}, 0).
Proof.
  split.
  - apply (postfix_returns_old_value {| m_couter := 15; m_max := 15 |}). concrete_interval.
  - apply (postfix_returns_old_value {| m_couter := 0; m_max := 15 |}). concrete_interval.
Defined.

(** * The shifts of [Button2] and [Button3] *)

Section Shifts.

Lemma shift_right_half v : shift_right v = v / 2.
Proof. unfold shift_right. now rewrite Z.shiftr_div_pow2. Qed.

Lemma shift_left_double v : 0 <= v < 2 ^ 63 -> shift_left v = 2 * v.
Proof.
  intros Hv. unfold shift_left. rewrite Z.shiftl_mul_pow2 by lia.
  rewrite wrap_small; [lia |].
  unfold Count.in_range. rewrite modulus_value. lia.
Qed.

(** A value that is already in the interval is stored as it is. *)
Lemma apply_in_range c func :
  0 <= m_max c < Count.max_value ->
  0 <= func (m_couter c) <= m_max c ->
  apply c func = Some {| m_couter := func (m_couter c); m_max := m_max c |}.
Proof.
  intros Hm Hf. rewrite (apply_defined c func Hm). do 2 f_equal.
  rewrite wrap_small
    by (unfold Count.in_range, Count.max_value in *; lia).
  apply Z.mod_small. lia.
Qed.

Lemma half_bounds v : 0 <= v -> 0 <= v / 2 <= v.
Proof.
  intros Hv. split; [apply Z.div_pos; lia |].
  apply Z.div_le_upper_bound; lia.
Qed.

End Shifts.

(** X3: [Button2] halves the counter, rounding down; the remainder that
    [apply] takes never changes the result of the shift to the right. *)
Theorem shift_right_is_exact (c : WrappedCounter) (run : bool) (s : Z) :
  in_interval c ->
  m_max c < Count.max_value ->
  dispatch c run PushButton.Button2 s =
    Some ({| m_couter := m_couter c / 2; m_max := m_max c |}, run, []).
Proof.
  intros [Hv Hmod] Hmax. cbn [dispatch].
  change (fun count : Z => Z.shiftr count 1) with shift_right.
  rewrite apply_in_range.
  - cbn [bind]. now rewrite shift_right_half.
  - lia.
  - rewrite shift_right_half. pose proof (half_bounds (m_couter c)). lia.
Qed.

Lemma shift_right_is_exact_witness :
  dispatch {| m_couter := 13; m_max := 15 |} true PushButton.Button2 0 =
    Some ({| m_couter := 6; m_max := 15 |}, true, []).
Proof.
  apply (shift_right_is_exact {| m_couter := 13; m_max := 15 |} true 0);
    concrete_interval.
Defined.

(** X4: [Button3] doubles the counter and takes off [max + 1] when the
    double passes [max], provided the double fits a [Count]
    ([max < 2^63]); for [max = 2^k - 1] this is the shift to the left
    within the low [k] bits, the bit shifted out of them being lost. *)
Theorem shift_left_drops_top_bit (c : WrappedCounter) (run : bool) (s : Z) :
  in_interval c ->
  m_max c < 2 ^ 63 ->
  let v := m_couter c in
  let v' := if 2 * v <=? m_max c then 2 * v else 2 * v - (m_max c + 1) in
  dispatch c run PushButton.Button3 s =
    Some ({| m_couter := v'; m_max := m_max c |}, run, []) /\
  (forall k, 0 <= k -> m_max c = 2 ^ k - 1 ->
             v' = Z.land (Z.shiftl v 1) (m_max c)).
Proof.
  intros [Hv Hmod] Hmax v v'.
  assert (Hm : 0 <= m_max c < Count.max_value)
    by (unfold Count.max_value; rewrite modulus_value; lia).
  assert (Hd : shift_left v = 2 * v) by (apply shift_left_double; subst v; lia).
  assert (Hrem : (2 * v) mod (m_max c + 1) = v').
  { subst v'. destruct (Z.leb_spec (2 * v) (m_max c)) as [Hle | Hgt].
    - apply Z.mod_small. subst v. lia.
    - replace (2 * v) with (2 * v - (m_max c + 1) + 1 * (m_max c + 1)) at 1 by lia.
      rewrite Z.mod_add by lia. apply Z.mod_small. subst v. lia. }
  split.
  - cbn [dispatch]. change (fun count : Z => Count.wrap (Z.shiftl count 1)) with shift_left.
    rewrite (apply_defined c shift_left Hm). cbn [bind]. fold v. rewrite Hd.
    rewrite (wrap_small (2 * v))
      by (unfold Count.in_range; rewrite modulus_value; subst v; lia).
    now rewrite Hrem.
  - intros k Hk Hmk. rewrite <- Hrem, Hmk.
    replace (2 ^ k - 1) with (Z.ones k) by (rewrite Z.ones_equiv; lia).
    rewrite Z.land_ones by lia. rewrite Z.shiftl_mul_pow2 by lia.
    f_equal; [lia |]. rewrite Z.ones_equiv. lia.
Qed.

Lemma shift_left_drops_top_bit_witness :
  dispatch {| m_couter := 13; m_max := 15 |} true PushButton.Button3 0 =
    Some ({| m_couter := 10; m_max := 15 |}, true, []).
Proof.
  apply (shift_left_drops_top_bit {| m_couter := 13; m_max := 15 |} true 0);
    concrete_interval.
Defined.

(** X5: a shift to the right followed by a shift to the left does not
    give the counter back: it clears the lowest bit. *)
Theorem shift_right_then_left_clears_low_bit (c : WrappedCounter) :
  in_interval c ->
  m_max c < Count.max_value ->
  (c1 <- apply c shift_right ;; apply c1 shift_left) =
    Some {| m_couter := m_couter c - m_couter c mod 2; m_max := m_max c |}.
Proof.
  intros [Hv Hmod] Hmax.
  pose proof (half_bounds (m_couter c) ltac:(lia)) as Hh.
  pose proof (Z.div_mod (m_couter c) 2 ltac:(lia)) as Hdm.
  pose proof (Z.mod_pos_bound (m_couter c) 2 ltac:(lia)) as Hb.
  rewrite apply_in_range by (rewrite ?shift_right_half; lia).
  cbn [bind]. rewrite shift_right_half.
  assert (Hd : shift_left (m_couter c / 2) = 2 * (m_couter c / 2)).
  { unfold shift_left. rewrite Z.shiftl_mul_pow2 by lia.
    rewrite wrap_small; [lia |]. unfold Count.in_range. lia. }
  rewrite apply_in_range; cbn [m_couter m_max]; rewrite ?Hd; try lia.
  do 2 f_equal. lia.
Qed.

Lemma shift_right_then_left_clears_low_bit_witness :
  (c1 <- apply {| m_couter := 13; m_max := 15 |} shift_right ;; apply c1 shift_left) =
    Some {| m_couter := 12; m_max := 15 |}.
Proof.
  apply (shift_right_then_left_clears_low_bit {| m_couter := 13; m_max := 15 |});
    concrete_interval.
Defined.

(** * Further properties of the loop *)

Section LoopFacts.

Lemma led_writes_app a b : led_writes (a ++ b) = led_writes a ++ led_writes b.
Proof.
  induction a as [| e a IH]; [reflexivity |].
  destruct e; cbn; now rewrite IH.
Qed.

Lemma switch_reads_app a b : switch_reads (a ++ b) = switch_reads a ++ switch_reads b.
Proof.
  induction a as [| e a IH]; [reflexivity |].
  destruct e; cbn; now rewrite IH.
Qed.

Lemma button_reads_app a b : button_reads (a ++ b) = (button_reads a + button_reads b)%nat.
Proof.
  induction a as [| e a IH]; [reflexivity |].
  destruct e; cbn; now rewrite IH.
Qed.

Lemma sleeps_app a b : sleeps (a ++ b) = (sleeps a + sleeps b)%nat.
Proof.
  induction a as [| e a IH]; [reflexivity |].
  destruct e; cbn; now rewrite IH.
Qed.

(** The loop with the flag set runs one iteration and goes on. *)
Lemma while_run_demo_step r rest st st' trace unread :
  run_demo st = true ->
  while_run_demo (r :: rest) st = Some (st', trace, unread) ->
  exists st1 evs1 evs2,
    iteration st r = Some (st1, evs1) /\
    while_run_demo rest st1 = Some (st', evs2, unread) /\
    trace = evs1 ++ evs2.
Proof.
  intros R. cbn [while_run_demo]. rewrite R.
  destruct (iteration st r) as [[st1 evs1] |] eqn:E1; cbn [bind]; [| discriminate].
  destruct (while_run_demo rest st1) as [[[st2 evs2] unread2] |] eqn:E2; cbn [bind];
    [| discriminate].
  intros E. injection E as <- <- <-. now exists st1, evs1, evs2.
Qed.

Lemma while_run_demo_compose r rest st st1 evs1 st' evs2 unread :
  run_demo st = true ->
  iteration st r = Some (st1, evs1) ->
  while_run_demo rest st1 = Some (st', evs2, unread) ->
  while_run_demo (r :: rest) st = Some (st', evs1 ++ evs2, unread).
Proof.
  intros R E1 E2. cbn [while_run_demo]. rewrite R, E1. cbn [bind].
  now rewrite E2.
Qed.

(** What the [switch] can do: only the [Multiple] case reads the
    switches, and only it can clear the flag. *)
Lemma dispatch_cases c run b s c' run' accesses :
  dispatch c run b s = Some (c', run', accesses) ->
  (b <> PushButton.Multiple /\ run' = run /\ accesses = []) \/
  (b = PushButton.Multiple /\
   run' = (if s =? SWITCH_EXIT_SENTINEL then false else run) /\
   accesses = [EvReadAllSwitches s] /\
   apply c (fun _ => s) = Some c').
Proof.
  destruct b; cbn [dispatch]; intros E.
  1-3: injection E as <- <- <-; left; repeat split; discriminate.
  1-2: match type of E with
       | bind ?a _ = _ => destruct a; cbn [bind] in E; [| discriminate]
       end;
       injection E as <- <- <-; left; repeat split; discriminate.
  destruct (apply c (fun _ => s)) as [c1 |] eqn:A; cbn [bind] in E; [| discriminate].
  injection E as <- <- <-. right. repeat split.
Qed.

(** The two ways through the body of the loop. *)
Lemma iteration_cases st r st1 evs :
  iteration st r = Some (st1, evs) ->
  (debounce_gate (previous_button st) (buttons r) = true /\
   st1 = st /\ evs = [EvPushButtonGet (buttons r); EvSleep]) \/
  (debounce_gate (previous_button st) (buttons r) = false /\
   exists run' accesses,
     dispatch (counter st) (run_demo st) (buttons r) (switches r)
       = Some (counter st1, run', accesses) /\
     st1 = {| counter := counter st1;
              previous_button := buttons r;
              run_demo := run' |} /\
     evs = EvPushButtonGet (buttons r) :: accesses
             ++ [EvWriteAllLeds (Register.wrap (m_couter (counter st1))); EvSleep]).
Proof.
  unfold iteration.
  destruct (debounce_gate (previous_button st) (buttons r)).
  - intros E. injection E as <- <-. left. auto.
  - destruct (dispatch (counter st) (run_demo st) (buttons r) (switches r))
      as [[[c' run'] accesses] |]; cbn [bind]; [| discriminate].
    intros E. injection E as <- <-. right. split; [reflexivity |].
    exists run', accesses. auto.
Qed.

(** An iteration reads the buttons once and sleeps once; it writes the
    LEDs at most once, and reads the switches only when it writes. *)
Lemma iteration_counts st r st1 evs :
  iteration st r = Some (st1, evs) ->
  button_reads evs = 1%nat /\ sleeps evs = 1%nat /\
  (length (switch_reads evs) <= length (led_writes evs) <= 1)%nat.
Proof.
  intros E. destruct (iteration_cases _ _ _ _ E)
    as [(_ & _ & ->) | (_ & run' & accesses & D & _ & ->)].
  - cbn. lia.
  - destruct (dispatch_cases _ _ _ _ _ _ _ D) as [(_ & _ & ->) | (_ & _ & -> & _)];
      cbn; lia.
Qed.

(** The iteration that clears the flag. *)
Lemma iteration_exit st r st1 evs :
  iteration st r = Some (st1, evs) ->
  run_demo st = true ->
  run_demo st1 = false ->
  exit_reading r = true /\
  m_couter (counter st1) = 0 /\
  previous_button st1 = PushButton.Multiple /\
  led_writes evs = [0] /\
  switch_reads evs = [SWITCH_EXIT_SENTINEL].
Proof.
  intros E R R1. destruct (iteration_cases _ _ _ _ E)
    as [(_ & -> & _) | (_ & run' & accesses & D & S1 & ->)]; [congruence |].
  rewrite S1 in R1. cbn [run_demo] in R1. subst run'.
  destruct (dispatch_cases _ _ _ _ _ _ _ D)
    as [(_ & Hr & _) | (B & Hr & -> & A)]; [congruence |].
  rewrite R in Hr.
  destruct (Z.eqb_spec (switches r) SWITCH_EXIT_SENTINEL) as [Z0 | _]; [| discriminate].
  assert (V : m_couter (counter st1) = 0).
  { unfold apply in A.
    destruct (Count.wrap (m_max (counter st) + 1) =? 0); [discriminate |].
    injection A as <-. cbn [m_couter]. rewrite Z0. reflexivity. }
  split; [unfold exit_reading; now rewrite B, Z0 |].
  split; [exact V |].
  split; [rewrite S1; exact B |].
  cbn [led_writes switch_reads app]. rewrite V, Z0. split; reflexivity.
Qed.

(** Without an exit reading the flag stays as it is. *)
Lemma iteration_keeps_running st r st1 evs :
  iteration st r = Some (st1, evs) ->
  exit_reading r = false ->
  run_demo st1 = run_demo st.
Proof.
  intros E X. destruct (iteration_cases _ _ _ _ E)
    as [(_ & -> & _) | (_ & run' & accesses & D & S1 & _)]; [reflexivity |].
  rewrite S1. cbn [run_demo].
  destruct (dispatch_cases _ _ _ _ _ _ _ D) as [(_ & -> & _) | (B & -> & _)];
    [reflexivity |].
  unfold exit_reading in X. rewrite B in X. cbn in X. now rewrite X.
Qed.

(** With a 32-bit maximum, an iteration that is not skipped writes the
    value of the counter to the LEDs. *)
Lemma iteration_leds st r st1 evs :
  iteration st r = Some (st1, evs) ->
  in_interval (counter st) ->
  Register.in_range (m_max (counter st)) ->
  in_interval (counter st1) /\
  m_max (counter st1) = m_max (counter st) /\
  ((st1 = st /\ led_writes evs = []) \/
   led_writes evs = [m_couter (counter st1)]).
Proof.
  intros E Hc Hreg.
  assert (Hmax : m_max (counter st) < Count.max_value).
  { unfold Register.in_range in Hreg. change Register.modulus with 4294967296 in Hreg.
    unfold Count.max_value. rewrite modulus_value. lia. }
  destruct (iteration_invariant st r Hc Hmax) as (st2 & evs2 & E2 & Hc2 & Hm2).
  rewrite E in E2. injection E2 as <- <-.
  split; [exact Hc2 |]. split; [exact Hm2 |].
  destruct (iteration_cases _ _ _ _ E)
    as [(_ & -> & ->) | (_ & run' & accesses & D & _ & ->)]; [left; auto |].
  right.
  rewrite (leds_show_counter _ (m_max (counter st1)))
    by (destruct Hc2; rewrite ?Hm2; auto; lia).
  destruct (dispatch_cases _ _ _ _ _ _ _ D) as [(_ & _ & ->) | (_ & _ & -> & _)];
    reflexivity.
Qed.

End LoopFacts.

Section DemoFacts.

(** [(1u << LED_COUNT) - 1] for a shift that [unsigned] allows. *)
Lemma counter_max_value LED_COUNT :
  0 <= LED_COUNT < 32 -> counter_max LED_COUNT = 2 ^ LED_COUNT - 1.
Proof.
  intros HL. unfold counter_max, Register.wrap.
  change Register.modulus with (2 ^ 32).
  assert (Hlt : 2 ^ LED_COUNT < 2 ^ 32) by (apply Z.pow_lt_mono_r; lia).
  assert (Hpos : 0 < 2 ^ LED_COUNT) by (apply Z.pow_pos_nonneg; lia).
  rewrite Z.shiftl_mul_pow2, Z.mul_1_l by lia.
  rewrite (Z.mod_small (2 ^ LED_COUNT)) by lia.
  apply Z.mod_small. lia.
Qed.

Lemma register_below_max_value m :
  Register.in_range m -> 0 <= m < Count.max_value.
Proof.
  unfold Register.in_range. change Register.modulus with 4294967296.
  unfold Count.max_value. rewrite modulus_value. lia.
Qed.

(** Against any readings the loop stays defined, keeps the counter in
    its interval, and writes to the LEDs only values of the interval. *)
Lemma while_run_demo_bounded board : forall st,
  in_interval (counter st) ->
  Register.in_range (m_max (counter st)) ->
  exists st' trace unread,
    while_run_demo board st = Some (st', trace, unread) /\
    in_interval (counter st') /\
    m_max (counter st') = m_max (counter st) /\
    Forall (fun v => 0 <= v <= m_max (counter st)) (led_writes trace).
Proof.
  induction board as [| r rest IH]; intros st Hc Hreg.
  - exists st, [], []. cbn. destruct (run_demo st); auto.
  - destruct (run_demo st) eqn:R.
    2: { exists st, [], (r :: rest). rewrite while_run_demo_returned by exact R.
         cbn. auto. }
    destruct (iteration_invariant st r Hc) as (st1 & evs1 & E1 & _ & _);
      [apply register_below_max_value in Hreg; lia |].
    destruct (iteration_leds _ _ _ _ E1 Hc Hreg) as (Hc1 & Hm1 & Hl1).
    destruct (IH st1 Hc1) as (st' & evs2 & unread & E2 & Hc' & Hm' & Hl2);
      [now rewrite Hm1 |].
    exists st', (evs1 ++ evs2), unread.
    split; [now apply (while_run_demo_compose r rest st st1) |].
    split; [exact Hc' |]. split; [congruence |].
    rewrite led_writes_app. apply Forall_app. split.
    + destruct Hl1 as [[_ ->] | ->]; [constructor |].
      constructor; [| constructor]. destruct Hc1. lia.
    + rewrite Hm1 in Hl2. exact Hl2.
Qed.

(** While the gate is closed for every reading, the loop only polls. *)
Lemma gate_closed_polls board : forall st,
  run_demo st = true ->
  Forall (fun x => debounce_gate (previous_button st) (buttons x) = true) board ->
  while_run_demo board st = Some (st, polling board, []).
Proof.
  induction board as [| r rest IH]; intros st R F; cbn [while_run_demo]; rewrite R.
  - reflexivity.
  - inversion F as [| ? ? Hr Hrest]; subst.
    rewrite (iteration_skipped st r Hr). cbn [bind].
    now rewrite (IH st R Hrest).
Qed.

(** After an iteration the gate is closed for the reading it has seen. *)
Lemma gate_closed_after st r st1 evs :
  iteration st r = Some (st1, evs) ->
  debounce_gate (previous_button st1) (buttons r) = true.
Proof.
  intros E. destruct (iteration_cases _ _ _ _ E)
    as [(G & -> & _) | (_ & run' & accesses & _ & -> & _)]; [exact G |].
  cbn [previous_button]. apply debounce_gate_spec. now right.
Qed.

(** A chord with the switches off, on an open gate. *)
Lemma iteration_exit_chord st :
  previous_button st <> PushButton.Multiple ->
  0 <= m_max (counter st) < Count.max_value ->
  iteration st exit_chord =
    Some ({| counter := {| m_couter := 0; m_max := m_max (counter st) |};
             previous_button := PushButton.Multiple;
             run_demo := false |},
          [EvPushButtonGet PushButton.Multiple;
           EvReadAllSwitches SWITCH_EXIT_SENTINEL;
           EvWriteAllLeds 0;
           EvSleep]).
Proof.
  intros P Hm. unfold iteration. cbn [buttons switches exit_chord].
  assert (G : debounce_gate (previous_button st) PushButton.Multiple = false)
    by (destruct (previous_button st); try reflexivity; contradiction).
  rewrite G, (dispatch_chord _ _ _ Hm)
    by (unfold Register.in_range, SWITCH_EXIT_SENTINEL;
        change Register.modulus with 4294967296; lia).
  cbn [bind]. unfold SWITCH_EXIT_SENTINEL.
  rewrite Z.mod_0_l by lia. reflexivity.
Qed.

(** A release leaves a state that waits for nothing: the counter and the
    flag are as before and the previous button state is [None]. *)
Lemma iteration_release st r :
  buttons r = PushButton.None ->
  exists evs,
    iteration st r =
      Some ({| counter := counter st;
               previous_button := PushButton.None;
               run_demo := run_demo st |}, evs).
Proof.
  intros B. destruct (PushButton.eqb (previous_button st) PushButton.None) eqn:P.
  - apply eqb_eq in P. eexists. rewrite iteration_skipped.
    + destruct st. cbn in *. now subst.
    + rewrite B, P. reflexivity.
  - apply eqb_neq in P. eexists. now apply iteration_released.
Qed.

End DemoFacts.

(** * The demo as a whole *)

(** X7: the LEDs follow the counter.  From a state whose counter is in
    its interval with a 32-bit maximum, whatever the readings, either the
    loop has not written the LEDs and the counter is as before, or the
    last value it has written to the LEDs is the value of the counter:
    the counter never changes behind the LEDs. *)
Theorem leds_display_counter (board : list Reading) : forall st st' trace unread,
  while_run_demo board st = Some (st', trace, unread) ->
  in_interval (counter st) ->
  Register.in_range (m_max (counter st)) ->
  (led_writes trace = [] /\ counter st' = counter st) \/
  (exists earlier, led_writes trace = earlier ++ [m_couter (counter st')]).
Proof.
  induction board as [| r rest IH]; intros st st' trace unread E Hc Hreg.
  - cbn in E. destruct (run_demo st); injection E as <- <- _; left; auto.
  - destruct (run_demo st) eqn:R.
    2: { rewrite while_run_demo_returned in E by exact R.
         injection E as <- <- _. left; auto. }
    destruct (while_run_demo_step _ _ _ _ _ _ R E) as (st1 & evs1 & evs2 & E1 & E2 & ->).
    destruct (iteration_leds _ _ _ _ E1 Hc Hreg) as (Hc1 & Hm1 & Hl1).
    rewrite led_writes_app.
    destruct (IH _ _ _ _ E2 Hc1) as [[L2 C2] | [earlier L2]]; [now rewrite Hm1 | |].
    + rewrite L2, app_nil_r.
      destruct Hl1 as [[-> ->] | ->]; [left; auto |].
      right. exists []. now rewrite C2.
    + right. exists (led_writes evs1 ++ earlier). now rewrite L2, app_assoc.
Qed.

Lemma leds_display_counter_witness :
  exists earlier,
    led_writes
      [EvPushButtonGet PushButton.Button0; EvWriteAllLeds 10; EvSleep;
       EvPushButtonGet PushButton.Button0; EvSleep]
    = earlier ++ [10].
Proof.
  destruct (leds_display_counter
              [ {| buttons := PushButton.Button0; switches := 0 |};
                {| buttons := PushButton.Button0; switches := 0 |} ]
              {| counter := {| m_couter := 9; m_max := 15 |};
                 previous_button := PushButton.None;
                 run_demo := true |}
              {| counter := {| m_couter := 10; m_max := 15 |};
                 previous_button := PushButton.Button0;
                 run_demo := true |}
              [EvPushButtonGet PushButton.Button0; EvWriteAllLeds 10; EvSleep;
               EvPushButtonGet PushButton.Button0; EvSleep]
              [])
    as [[L _] | H].
  - reflexivity.
  - concrete_interval.
  - unfold Register.in_range. cbn. change Register.modulus with 4294967296. lia.
  - discriminate L.
  - exact H.
Defined.



(** X6: for a number of LEDs that [1u << LED_COUNT] allows, the demo is
    defined against every sequence of readings (it never takes a
    remainder by zero), its counter has the maximum [2^LED_COUNT - 1] and
    a value below [2^LED_COUNT] throughout, and every value it writes to
    the LED register is below [2^LED_COUNT]: no bit beyond the LEDs is
    ever set. *)
Theorem leds_within_led_count (LED_COUNT : Z) (board : list Reading) :
  0 <= LED_COUNT < 32 ->
  exists st trace unread,
    run_button_demo LED_COUNT board = Some (st, trace, unread) /\
    m_max (counter st) = 2 ^ LED_COUNT - 1 /\
    0 <= m_couter (counter st) < 2 ^ LED_COUNT /\
    Forall (fun v => 0 <= v < 2 ^ LED_COUNT) (led_writes trace).
Proof.
  intros HL. unfold run_button_demo.
  pose proof (counter_max_value LED_COUNT HL) as Hmax.
  pose proof (counter_max_register LED_COUNT) as Hreg.
  destruct (while_run_demo_bounded board (initial_state LED_COUNT))
    as (st & trace & unread & E & Hc & Hm & Hl).
  - unfold in_interval. cbn. unfold Register.in_range in Hreg.
    change Register.modulus with 4294967296 in Hreg. rewrite modulus_value. lia.
  - exact Hreg.
  - cbn [initial_state counter make_counter m_max] in Hm, Hl.
    exists st, trace, unread. split; [exact E |].
    split; [congruence |].
    split; [destruct Hc; lia |].
    eapply Forall_impl; [| exact Hl]. cbn beta. intros v Hv. lia.
Qed.

Lemma leds_within_led_count_witness :
  exists st trace unread,
    run_button_demo 4 [ {| buttons := PushButton.Button1; switches := 0 |} ]
      = Some (st, trace, unread) /\
    m_max (counter st) = 15 /\
    Forall (fun v => 0 <= v < 16) (led_writes trace).
Proof.
  destruct (leds_within_led_count 4 [ {| buttons := PushButton.Button1; switches := 0 |} ])
    as (st & trace & unread & E & Hm & _ & Hl).
  - lia.
  - exists st, trace, unread. repeat split; assumption.
Defined.

(** X8: the loop returns on nothing but a chord read while the switches
    show [SWITCH_EXIT_SENTINEL]: against readings without one, a running
    loop is still running when the readings end, having read the buttons
    once and slept once for every reading. *)
Theorem no_exit_without_sentinel_chord (board : list Reading) (st : LoopState) :
  in_interval (counter st) ->
  m_max (counter st) < Count.max_value ->
  run_demo st = true ->
  Forall (fun r => exit_reading r = false) board ->
  exists st' trace,
    while_run_demo board st = Some (st', trace, []) /\
    run_demo st' = true /\
    button_reads trace = length board /\
    sleeps trace = length board.
Proof.
  revert st. induction board as [| r rest IH]; intros st Hc Hmax R F.
  - exists st, []. cbn. rewrite R. auto.
  - inversion F as [| ? ? Hr Hrest]; subst.
    destruct (iteration_invariant st r Hc Hmax) as (st1 & evs1 & E1 & Hc1 & Hm1).
    pose proof (iteration_keeps_running _ _ _ _ E1 Hr) as R1. rewrite R in R1.
    destruct (iteration_counts _ _ _ _ E1) as (Hb & Hs & _).
    destruct (IH st1 Hc1) as (st' & evs2 & E2 & R' & Hb2 & Hs2); trivial; [lia |].
    exists st', (evs1 ++ evs2).
    split; [now apply (while_run_demo_compose r rest st st1) |].
    rewrite button_reads_app, sleeps_app, Hb, Hs, Hb2, Hs2. auto.
Qed.

Lemma no_exit_without_sentinel_chord_witness :
  exists st' trace,
    while_run_demo
      [ {| buttons := PushButton.Multiple; switches := 5 |};
        {| buttons := PushButton.None; switches := 0 |} ]
      scenario_start = Some (st', trace, []) /\
    run_demo st' = true.
Proof.
  destruct (no_exit_without_sentinel_chord
              [ {| buttons := PushButton.Multiple; switches := 5 |};
                {| buttons := PushButton.None; switches := 0 |} ]
              scenario_start)
    as (st' & trace & E & R & _).
  - unfold scenario_start. concrete_interval.
  - unfold scenario_start. concrete_interval.
  - reflexivity.
  - repeat constructor.
  - exists st', trace. split; assumption.
Defined.

(** X9: when a running loop returns, it has stopped at an exit reading
    (what follows it is never read), the last switch value it has read
    is [SWITCH_EXIT_SENTINEL], the counter is [0], the last value written
    to the LEDs is [0], and the previous button state is [Multiple]. *)
Theorem exit_leaves_leds_dark (board : list Reading) :
  forall st st' trace unread,
  while_run_demo board st = Some (st', trace, unread) ->
  run_demo st = true ->
  run_demo st' = false ->
  m_couter (counter st') = 0 /\
  previous_button st' = PushButton.Multiple /\
  (exists earlier, led_writes trace = earlier ++ [0]) /\
  (exists earlier, switch_reads trace = earlier ++ [SWITCH_EXIT_SENTINEL]) /\
  (exists consumed r, board = consumed ++ r :: unread /\ exit_reading r = true).
Proof.
  induction board as [| r rest IH]; intros st st' trace unread E R R'.
  - cbn in E. rewrite R in E. injection E as <- _ _. congruence.
  - destruct (while_run_demo_step _ _ _ _ _ _ R E) as (st1 & evs1 & evs2 & E1 & E2 & ->).
    rewrite led_writes_app, switch_reads_app.
    destruct (run_demo st1) eqn:R1.
    + destruct (IH _ _ _ _ E2 R1 R') as (V & P & [l Hl] & [w Hw] & (consumed & x & Hb & Hx)).
      repeat split; trivial.
      * exists (led_writes evs1 ++ l). now rewrite Hl, app_assoc.
      * exists (switch_reads evs1 ++ w). now rewrite Hw, app_assoc.
      * exists (r :: consumed), x. split; [now rewrite Hb | exact Hx].
    + rewrite (while_run_demo_returned rest st1 R1) in E2.
      injection E2 as <- <- <-.
      destruct (iteration_exit _ _ _ _ E1 R R1) as (Hx & V & P & Hl & Hw).
      repeat split; trivial.
      * exists []. now rewrite Hl.
      * exists []. now rewrite Hw.
      * exists [], r. auto.
Qed.

Lemma exit_leaves_leds_dark_witness :
  m_couter {| m_couter := 0; m_max := 15 |} = 0 /\
  exists earlier, led_writes
    [EvPushButtonGet PushButton.Multiple; EvReadAllSwitches 0; EvWriteAllLeds 0; EvSleep]
    = earlier ++ [0].
Proof.
  destruct (exit_leaves_leds_dark
              [ exit_chord; release ]
              scenario_start
              {| counter := {| m_couter := 0; m_max := 15 |};
                 previous_button := PushButton.Multiple;
                 run_demo := false |}
              [EvPushButtonGet PushButton.Multiple; EvReadAllSwitches 0;
               EvWriteAllLeds 0; EvSleep]
              [ release ])
    as (V & _ & L & _).
  - reflexivity.
  - reflexivity.
  - reflexivity.
  - split; [exact V | exact L].
Defined.

(** X10: a button state acts once however long it is held.  If the
    iteration on a reading leaves the loop running, then for any number
    of further readings that show the same buttons the loop only polls:
    the state stays what the first iteration left, and nothing more is
    read from the switches or written to the LEDs. *)
Theorem held_buttons_act_once (st st1 : LoopState) (r : Reading)
    (evs : list IOEvent) (held : list Reading) :
  run_demo st = true ->
  iteration st r = Some (st1, evs) ->
  run_demo st1 = true ->
  Forall (fun x => buttons x = buttons r) held ->
  while_run_demo (r :: held) st = Some (st1, evs ++ polling held, []) /\
  led_writes (evs ++ polling held) = led_writes evs /\
  switch_reads (evs ++ polling held) = switch_reads evs.
Proof.
  intros R E R1 F.
  destruct (polling_quiet held) as [Hl Hs].
  split; [| now rewrite led_writes_app, switch_reads_app, Hl, Hs, !app_nil_r].
  apply (while_run_demo_compose r held st st1); trivial.
  apply gate_closed_polls; [exact R1 |].
  eapply Forall_impl; [| exact F].
  intros x Hx. cbn beta in Hx. rewrite Hx. exact (gate_closed_after _ _ _ _ E).
Qed.

Lemma held_buttons_act_once_witness :
  while_run_demo
    [ {| buttons := PushButton.Button0; switches := 0 |};
      {| buttons := PushButton.Button0; switches := 1 |};
      {| buttons := PushButton.Button0; switches := 2 |} ]
    scenario_start
  = Some ({| counter := {| m_couter := 0; m_max := 15 |};
             previous_button := PushButton.Button0;
             run_demo := true |},
          [EvPushButtonGet PushButton.Button0; EvWriteAllLeds 0; EvSleep;
           EvPushButtonGet PushButton.Button0; EvSleep;
           EvPushButtonGet PushButton.Button0; EvSleep],
          []).
Proof.
  apply (held_buttons_act_once
           scenario_start
           {| counter := {| m_couter := 0; m_max := 15 |};
              previous_button := PushButton.Button0;
              run_demo := true |}
           {| buttons := PushButton.Button0; switches := 0 |}
           [EvPushButtonGet PushButton.Button0; EvWriteAllLeds 0; EvSleep]
           [ {| buttons := PushButton.Button0; switches := 1 |};
             {| buttons := PushButton.Button0; switches := 2 |} ]).
  - reflexivity.
  - reflexivity.
  - reflexivity.
  - repeat constructor.
Defined.

(** X11: the demo can always be left.  From every state of the running
    loop whose counter is well formed, releasing the buttons and then
    pressing a chord with all switches off makes the loop return, with
    the counter at [0]; the readings after the chord are not read. *)
Theorem release_then_chord_exits (st : LoopState) (rest : list Reading) :
  in_interval (counter st) ->
  m_max (counter st) < Count.max_value ->
  run_demo st = true ->
  exists trace,
    while_run_demo (release :: exit_chord :: rest) st =
      Some ({| counter := {| m_couter := 0; m_max := m_max (counter st) |};
               previous_button := PushButton.Multiple;
               run_demo := false |},
            trace, rest).
Proof.
  intros Hc Hmax R.
  destruct (iteration_release st release eq_refl) as [evs0 E0].
  rewrite R in E0.
  set (st0 := {| counter := counter st;
                 previous_button := PushButton.None;
                 run_demo := true |}) in *.
  assert (E1 := iteration_exit_chord st0).
  cbn [st0 previous_button counter] in E1.
  specialize (E1 ltac:(discriminate) ltac:(destruct Hc; lia)).
  eexists.
  apply (while_run_demo_compose release _ st st0); [exact R | exact E0 |].
  eapply while_run_demo_compose; [reflexivity | exact E1 |].
  now apply while_run_demo_returned.
Qed.

Lemma release_then_chord_exits_witness :
  exists trace,
    while_run_demo [release; exit_chord; release] scenario_start =
      Some ({| counter := {| m_couter := 0; m_max := 15 |};
               previous_button := PushButton.Multiple;
               run_demo := false |},
            trace, [release]).
Proof.
  apply (release_then_chord_exits scenario_start [release]).
  - unfold scenario_start. concrete_interval.
  - unfold scenario_start. concrete_interval.
  - reflexivity.
Defined.

(** X12: after a release every press acts.  From every state of the
    running loop whose counter is well formed, a reading of [None]
    followed by a reading of a single button runs the [switch] case of
    that button on the counter as it was, and writes the new value of
    the counter to the LEDs last. *)
Theorem press_after_release_acts (st : LoopState) (r0 r1 : Reading) :
  in_interval (counter st) ->
  Register.in_range (m_max (counter st)) ->
  run_demo st = true ->
  buttons r0 = PushButton.None ->
  PushButton.is_single (buttons r1) = true ->
  exists c' trace earlier,
    dispatch (counter st) true (buttons r1) (switches r1) = Some (c', true, []) /\
    while_run_demo [r0; r1] st =
      Some ({| counter := c'; previous_button := buttons r1; run_demo := true |},
            trace, []) /\
    led_writes trace = earlier ++ [m_couter c'].
Proof.
  intros Hc Hreg R B0 B1.
  pose proof (register_below_max_value _ Hreg) as Hmax.
  destruct (iteration_release st r0 B0) as [evs0 E0]. rewrite R in E0.
  set (st0 := {| counter := counter st;
                 previous_button := PushButton.None;
                 run_demo := true |}) in *.
  destruct (dispatch_invariant (counter st) true (buttons r1) (switches r1) Hc)
    as (c' & run' & accesses & D & Hc' & Hm'); [lia |].
  destruct (dispatch_cases _ _ _ _ _ _ _ D) as [(_ & -> & ->) | (B & _)];
    [| rewrite B in B1; discriminate].
  assert (G : debounce_gate PushButton.None (buttons r1) = false)
    by (destruct (buttons r1); try reflexivity; discriminate).
  assert (E1 : iteration st0 r1 =
                 Some ({| counter := c'; previous_button := buttons r1; run_demo := true |},
                       [EvPushButtonGet (buttons r1);
                        EvWriteAllLeds (Register.wrap (m_couter c'));
                        EvSleep])).
  { unfold iteration. cbn [st0 previous_button counter run_demo].
    rewrite G, D. reflexivity. }
  exists c'. eexists. exists (led_writes evs0).
  split; [exact D |]. split.
  - apply (while_run_demo_compose r0 _ st st0); [exact R | exact E0 |].
    eapply while_run_demo_compose; [reflexivity | exact E1 | reflexivity].
  - rewrite led_writes_app. f_equal. cbn.
    rewrite (leds_show_counter _ (m_max c')); [reflexivity | destruct Hc'; lia |].
    now rewrite Hm'.
Qed.

Lemma press_after_release_acts_witness :
  exists c' trace earlier,
    dispatch {| m_couter := 3; m_max := 15 |} true PushButton.Button0 0
      = Some (c', true, []) /\
    while_run_demo
      [ {| buttons := PushButton.None; switches := 0 |};
        {| buttons := PushButton.Button0; switches := 0 |} ]
      {| counter := {| m_couter := 3; m_max := 15 |};
         previous_button := PushButton.Multiple;
         run_demo := true |}
    = Some ({| counter := c'; previous_button := PushButton.Button0; run_demo := true |},
            trace, []) /\
    led_writes trace = earlier ++ [m_couter c'].
Proof.
  apply (press_after_release_acts
           {| counter := {| m_couter := 3; m_max := 15 |};
              previous_button := PushButton.Multiple;
              run_demo := true |}
           {| buttons := PushButton.None; switches := 0 |}
           {| buttons := PushButton.Button0; switches := 0 |}).
  - concrete_interval.
  - unfold Register.in_range. cbn. change Register.modulus with 4294967296. lia.
  - reflexivity.
  - reflexivity.
  - reflexivity.
Defined.

(** X13: the loop paces itself.  Whatever the readings, it sleeps once
    after every read of the buttons, writes the LEDs at most once per
    read, reads the switches at most once per LED write, and has read
    the buttons exactly once for every reading that it has used up. *)
Theorem one_sleep_per_poll (board : list Reading) :
  forall st st' trace unread,
  while_run_demo board st = Some (st', trace, unread) ->
  sleeps trace = button_reads trace /\
  (length (switch_reads trace) <= length (led_writes trace) <= button_reads trace)%nat /\
  (button_reads trace + length unread = length board)%nat.
Proof.
  induction board as [| r rest IH]; intros st st' trace unread E.
  - cbn in E. destruct (run_demo st); injection E as _ <- <-; cbn; lia.
  - destruct (run_demo st) eqn:R.
    + destruct (while_run_demo_step _ _ _ _ _ _ R E) as (st1 & evs1 & evs2 & E1 & E2 & ->).
      destruct (iteration_counts _ _ _ _ E1) as (Hb & Hs & Hw).
      destruct (IH _ _ _ _ E2) as (Hs2 & Hw2 & Hn2).
      rewrite sleeps_app, button_reads_app, led_writes_app, switch_reads_app,
        !length_app. cbn [length]. lia.
    + rewrite (while_run_demo_returned _ _ R) in E.
      injection E as _ <- <-. cbn. lia.
Qed.

Lemma one_sleep_per_poll_witness :
  (sleeps [EvPushButtonGet PushButton.Multiple; EvReadAllSwitches 0;
           EvWriteAllLeds 0; EvSleep] = 1)%nat.
Proof.
  destruct (one_sleep_per_poll
              [ exit_chord; release ]
              scenario_start
              {| counter := {| m_couter := 0; m_max := 15 |};
                 previous_button := PushButton.Multiple;
                 run_demo := false |}
              [EvPushButtonGet PushButton.Multiple; EvReadAllSwitches 0;
               EvWriteAllLeds 0; EvSleep]
              [ release ])
    as (S & _).
  - reflexivity.
  - exact S.
Defined.

(** X14: the demo does nothing until a button is pressed.  As long as
    the readings show no button, it only polls and stays in its first
    state: the LED register is never written, so the LEDs are not
    cleared when the demo starts. *)
Theorem idle_until_first_press (LED_COUNT : Z) (board : list Reading) :
  0 <= LED_COUNT < 32 ->
  Forall (fun r => buttons r = PushButton.None) board ->
  run_button_demo LED_COUNT board =
    Some (initial_state LED_COUNT, polling board, []) /\
  led_writes (polling board) = [] /\
  m_couter (counter (initial_state LED_COUNT)) = 0 /\
  m_max (counter (initial_state LED_COUNT)) = 2 ^ LED_COUNT - 1.
Proof.
  intros HL F. split; [| split; [apply polling_quiet | split]].
  - unfold run_button_demo. apply gate_closed_polls; [reflexivity |].
    eapply Forall_impl; [| exact F].
    intros r Hr. cbn beta in Hr. now rewrite Hr.
  - reflexivity.
  - cbn. now apply counter_max_value.
Qed.

Lemma idle_until_first_press_witness :
  run_button_demo 4 [release; release] =
    Some (initial_state 4,
          [EvPushButtonGet PushButton.None; EvSleep;
           EvPushButtonGet PushButton.None; EvSleep],
          []).
Proof.
  apply (idle_until_first_press 4 [release; release]).
  - lia.
  - repeat constructor.
Defined.
